(** * stainless-prep: the $ref resolver stubs (exercise 04) and the typed
      HTTP errors (exercise 05)

    A shallow embedding of the TypeScript sources

    - [src/exercises/04-ref-resolver.ts]: the six exported functions
      [parseJsonPointer], [resolvePointer], [resolveRefs],
      [resolveDocument], [hasUnresolvedRefs], [collectRefs];
    - [src/exercises/05-http-client-abstraction.ts]: the error classes
      [APIError] and [RateLimitError].

    JavaScript objects live in a heap and are passed by reference; a call
    is a heap transformer that ends in a completion (a returned value or
    a thrown [Error]).  HTTP status codes are integers and are modelled
    in [Z]; the numbers that [parseRetryAfter] computes are IEEE-754
    binary64 values, modelled by the Standard Library's [spec_float];
    strings are sequences of 8-bit code units, which is exact for the
    ASCII delimiters the pointer syntax uses and for header values (byte
    strings). *)

From Stdlib Require Import ZArith String Ascii List Lia.
From Stdlib Require DecimalString DecimalZ DecimalPos.
From Stdlib Require Import SpecFloat.
From stdpp Require Import base option list gmap strings.
Import ListNotations.

Local Open Scope string_scope.
Set Warnings "-register-all".

(* ===================================================================== *)
(** ** JavaScript values, heap and completions                            *)
(* ===================================================================== *)

Module Js.

(** [new Error(message)]: the [name] of a plain [Error] is ["Error"]. *)
Record Error := mkError { err_name : string; err_message : string }.

Definition new_Error (message : string) : Error :=
  {| err_name := "Error"; err_message := message |}.

(** A call either returns a value or throws. *)
Inductive completion (A : Type) : Type :=
| Return (a : A)
| Throw (e : Error).
Arguments Return {A} a.
Arguments Throw {A} e.

Definition returns {A} (c : completion A) : bool :=
  match c with Return _ => true | Throw _ => false end.

(** Heap locations and values.  Objects and arrays are references. *)
Definition loc := nat.

Inductive val :=
| VUndefined
| VNull
| VBool (b : bool)
| VNum (n : Z)
| VStr (s : string)
| VRef (l : loc).

(** A heap cell: a plain object (own properties in insertion order, as
    [Object.entries] lists them) or an array. *)
Inductive obj :=
| OObject (props : list (string * val))
| OArray (elems : list val).

Definition heap := list obj.

(** The monad of the embedding: heap passing with exceptions. *)
Definition JS (A : Type) : Type := heap -> heap * completion A.

Definition ret {A} (a : A) : JS A := fun h => (h, Return a).
Definition throw {A} (e : Error) : JS A := fun h => (h, Throw e).
Definition bind {A B} (m : JS A) (k : A -> JS B) : JS B :=
  fun h => match m h with
           | (h', Return a) => k a h'
           | (h', Throw e) => (h', Throw e)
           end.

(** Object and array literals as trees, and the deep reading of a heap
    value back into a tree (what [JSON.parse(JSON.stringify(x))] and
    jest's [toEqual] look at). *)
Inductive tree :=
| TUndefined
| TNull
| TBool (b : bool)
| TNum (n : Z)
| TStr (s : string)
| TArr (elems : list tree)
| TObj (props : list (string * tree)).

(** Evaluating a literal allocates one fresh cell per object and array,
    children first. *)
Fixpoint alloc (t : tree) (h : heap) : val * heap :=
  match t with
  | TUndefined => (VUndefined, h)
  | TNull => (VNull, h)
  | TBool b => (VBool b, h)
  | TNum n => (VNum n, h)
  | TStr s => (VStr s, h)
  | TArr elems =>
      let '(vs, h1) :=
        (fix go (l : list tree) (h0 : heap) : list val * heap :=
           match l with
           | [] => ([], h0)
           | x :: r =>
               let '(v, h') := alloc x h0 in
               let '(vs, h'') := go r h' in
               (v :: vs, h'')
           end) elems h in
      (VRef (List.length h1), (h1 ++ [OArray vs])%list)
  | TObj props =>
      let '(kvs, h1) :=
        (fix go (l : list (string * tree)) (h0 : heap)
           : list (string * val) * heap :=
           match l with
           | [] => ([], h0)
           | (k, x) :: r =>
               let '(v, h') := alloc x h0 in
               let '(kvs, h'') := go r h' in
               ((k, v) :: kvs, h'')
           end) props h in
      (VRef (List.length h1), (h1 ++ [OObject kvs])%list)
  end.

(** Deep read.  The heap may be cyclic, hence the fuel; [None] when the
    fuel runs out or a reference dangles. *)
Fixpoint snapshot (fuel : nat) (h : heap) (v : val) : option tree :=
  match v with
  | VUndefined => Some TUndefined
  | VNull => Some TNull
  | VBool b => Some (TBool b)
  | VNum n => Some (TNum n)
  | VStr s => Some (TStr s)
  | VRef l =>
      match fuel with
      | O => None
      | S fuel' =>
          match h !! l with
          | None => None
          | Some (OArray elems) =>
              TArr <$> mapM (snapshot fuel' h) elems
          | Some (OObject props) =>
              TObj <$> mapM (fun kv : string * val =>
                               pair (fst kv) <$> snapshot fuel' h (snd kv))
                            props
          end
      end
  end.

(** Property read [o.key] on an own property of a plain object;
    [undefined] otherwise. *)
Definition assoc {A} (key : string) (l : list (string * A)) : option A :=
  snd <$> find (fun kv => String.eqb (fst kv) key) l.

Definition get_prop (h : heap) (o : val) (key : string) : val :=
  match o with
  | VRef l =>
      match h !! l with
      | Some (OObject props) => default VUndefined (assoc key props)
      | _ => VUndefined
      end
  | _ => VUndefined
  end.

End Js.

Import Js.

(* ===================================================================== *)
(** ** Exercise 04: the $ref resolver                                     *)
(* ===================================================================== *)

Module RefResolver.

(** [ResolveOptions]: every field is optional. *)
Inductive CircularHandling := ch_error | ch_mark | ch_lazy.

Record ResolveOptions := mkResolveOptions {
  circularHandling : option CircularHandling;
  maxDepth : option Z;
  mutate : option bool
}.

(** [ResolveResult<T>]. *)
Record ResolveResult := mkResolveResult {
  resolved : val;
  resolvedRefs : gset string;
  circularRefs : gset string
}.

(** The body of each exported function is
    [throw new Error('Not implemented')]. *)
Definition not_implemented : Error := new_Error "Not implemented".

Definition parseJsonPointer (pointer : string) : JS (list string) :=
  throw not_implemented.

Definition resolvePointer (document : val) (path : list string) : JS val :=
  throw not_implemented.

Definition resolveRefs (schema document : val)
    (options : option ResolveOptions) : JS ResolveResult :=
  throw not_implemented.

Definition resolveDocument (document : val)
    (options : option ResolveOptions) : JS ResolveResult :=
  throw not_implemented.

Definition hasUnresolvedRefs (schema : val) : JS bool :=
  throw not_implemented.

Definition collectRefs (schema : val) : JS (gset string) :=
  throw not_implemented.

End RefResolver.

Import RefResolver.

(* ===================================================================== *)
(** ** The objects the resolver's test-suite passes in                    *)
(* ===================================================================== *)

Module Fixtures.

Definition schema_ref (pointer : string) : tree :=
  TObj [("$ref", TStr pointer)].

Definition string_schema : tree := TObj [("type", TStr "string")].

Definition document (schemas : list (string * tree)) : tree :=
  TObj [("openapi", TStr "3.0.3");
        ("info", TObj [("title", TStr "Test"); ("version", TStr "1.0.0")]);
        ("components", TObj [("schemas", TObj schemas)])].

(** [baseDoc] of the [resolveRefs] tests. *)
Definition baseDoc : tree :=
  document
    [("User", TObj [("type", TStr "object");
                    ("properties", TObj [("id", string_schema);
                                         ("name", string_schema)])]);
     ("Post", TObj [("type", TStr "object");
                    ("properties",
                      TObj [("id", string_schema);
                            ("author", schema_ref "#/components/schemas/User")])])].

(** [circularDoc] of the mark-mode test: [Node.children.items] refers to
    [Node]. *)
Definition circularDoc_mark : tree :=
  document
    [("Node", TObj [("type", TStr "object");
                    ("properties",
                      TObj [("value", string_schema);
                            ("children",
                              TObj [("type", TStr "array");
                                    ("items", schema_ref "#/components/schemas/Node")])])])].

(** [circularDoc] of the error-mode test: [A] is a reference to [A]. *)
Definition circularDoc_A : tree :=
  document [("A", schema_ref "#/components/schemas/A")].

(** [docWithArray] of the [resolvePointer] tests. *)
Definition docWithArray : tree :=
  TObj [("items", TArr [TStr "a"; TStr "b"; TStr "c"])].

(** The [oneOf] schema of the [collectRefs] tests. *)
Definition oneOf_schema : tree :=
  TObj [("oneOf", TArr [schema_ref "#/components/schemas/A";
                        schema_ref "#/components/schemas/B"])].

(** [doc.components!.schemas![name]]. *)
Definition component_schema (h : heap) (doc : val) (name : string) : val :=
  get_prop h (get_prop h (get_prop h doc "components") "schemas") name.

Definition options_with (ch : option CircularHandling) (mu : option bool)
  : option ResolveOptions :=
  Some {| circularHandling := ch; maxDepth := None; mutate := mu |}.

(** What the tests look for in a thrown error: [toThrow(/[Cc]ircular/)]
    and [toThrow(/[Ee]xternal/)] match on the message. *)
Fixpoint includes (needle hay : string) : bool :=
  String.prefix needle hay ||
  match hay with
  | EmptyString => false
  | String _ rest => includes needle rest
  end.

Definition is_circular_reference_error (e : Error) : bool :=
  includes "ircular" (err_message e).

Definition is_external_reference_error (pointer : string) (e : Error) : bool :=
  includes "xternal" (err_message e) && includes pointer (err_message e).

End Fixtures.

Import Fixtures.

(* ===================================================================== *)
(** ** The parser sketched in the exercise's HINT 1                       *)
(* ===================================================================== *)

(** The exercise file closes with hints.  HINT 1 is a complete sketch of
    the intended pointer parser; it is a comment of the source, not the
    exported function, and is embedded here to record what the documented
    intent computes. *)
Module Hint1.

(** [segment.replace(/~1/g, '/')]: one left-to-right scan, matches do
    not overlap. *)
Fixpoint replace_tilde1 (s : string) : string :=
  match s with
  | EmptyString => EmptyString
  | String "~" (String "1" rest) => String "/" (replace_tilde1 rest)
  | String c rest => String c (replace_tilde1 rest)
  end.

(** [segment.replace(/~0/g, '~')]. *)
Fixpoint replace_tilde0 (s : string) : string :=
  match s with
  | EmptyString => EmptyString
  | String "~" (String "0" rest) => String "~" (replace_tilde0 rest)
  | String c rest => String c (replace_tilde0 rest)
  end.

Definition unescapePointer (segment : string) : string :=
  replace_tilde0 (replace_tilde1 segment).

(** [s.split('/')]: the empty string splits into one empty piece. *)
Fixpoint split_slash (s : string) : list string :=
  match s with
  | EmptyString => [EmptyString]
  | String c rest =>
      if Ascii.eqb c "/" then EmptyString :: split_slash rest
      else match split_slash rest with
           | piece :: pieces => String c piece :: pieces
           | [] => [String c EmptyString]
           end
  end.

(** [pointer.startsWith(prefix)] and [pointer.slice(2)]. *)
Definition startsWith (prefix s : string) : bool := String.prefix prefix s.

Definition slice2 (s : string) : string :=
  match s with
  | String _ (String _ rest) => rest
  | _ => EmptyString
  end.

Definition parseJsonPointer (pointer : string) : completion (list string) :=
  if negb (startsWith "#/" pointer) then
    if startsWith "#" pointer then Return []
    else Throw (new_Error ("Invalid JSON pointer: " ++ pointer))
  else Return (map unescapePointer (split_slash (slice2 pointer))).

(** The inverse direction of the round-trip law: a segment is re-escaped
    ([~] to [~0], [/] to [~1]), the segments are joined with [/] and
    prefixed with [#/]. *)
Fixpoint escapePointer (segment : string) : string :=
  match segment with
  | EmptyString => EmptyString
  | String c rest =>
      if Ascii.eqb c "~" then String "~" (String "0" (escapePointer rest))
      else if Ascii.eqb c "/" then String "~" (String "1" (escapePointer rest))
      else String c (escapePointer rest)
  end.

Fixpoint join_slash (pieces : list string) : string :=
  match pieces with
  | [] => EmptyString
  | [piece] => piece
  | piece :: more => piece ++ String "/" (join_slash more)
  end.

Definition formatJsonPointer (segments : list string) : string :=
  "#/" ++ join_slash (map escapePointer segments).

(** A valid pointer (RFC 6901): every [~] is followed by [0] or [1]. *)
Fixpoint well_escaped (s : string) : bool :=
  match s with
  | EmptyString => true
  | String "~" (String "0" rest) => well_escaped rest
  | String "~" (String "1" rest) => well_escaped rest
  | String "~" _ => false
  | String _ rest => well_escaped rest
  end.

Definition valid_pointer (p : string) : bool :=
  startsWith "#/" p && well_escaped (slice2 p).

End Hint1.

(* ===================================================================== *)
(** ** Exercise 05: the typed HTTP errors                                 *)
(* ===================================================================== *)

Module HttpClient.

(** JavaScript numbers are IEEE-754 binary64 values: [spec_float] at
    precision 53 with [emax] 1024, that is zeros and infinities of both
    signs, [NaN], and finite values [m * 2^e]. *)
Definition number := spec_float.

Definition NaN : number := S754_nan.

(** The number for a mathematical integer: the nearest binary64 value,
    ties to even, an infinity beyond the range; [negative_zero] is the
    sign that a zero takes. *)
Definition of_integer (n : Z) (negative_zero : bool) : number :=
  binary_normalize 53 1024 n 0 negative_zero.

(** An integer literal of the source, such as [1000]. *)
Definition Int (n : Z) : number := of_integer n false.

Definition isNaN (x : number) : bool :=
  match x with S754_nan => true | _ => false end.

(** [x * y] on numbers. *)
Definition times (x y : number) : number := SFmul 53 1024 x y.

(** The integer that a number denotes, when it denotes one. *)
Definition integer_value (x : number) : option Z :=
  match x with
  | S754_zero _ => Some 0%Z
  | S754_finite s m e =>
      if (e <? 0)%Z then
        if (Z.pos m mod 2 ^ (- e) =? 0)%Z
        then Some (cond_Zopp s (Z.pos m / 2 ^ (- e)))
        else None
      else Some (cond_Zopp s (Z.pos m * 2 ^ e))
  | _ => None
  end.

(** [parseInt(string, 10)] (ECMA-262, 19.2.5): leading white space is
    skipped, one sign is read, then the longest run of decimal digits;
    no digit gives [NaN]; what follows the digits is ignored.  The
    result is the number for [sign * digits], and [-0] when the digits
    are zero after a [-].  (For numerals of more than 20 significant
    digits ECMA-262 allows an approximation; the nearest number is taken
    here, as the engines do.) *)
Definition is_white_space (c : ascii) : bool :=
  match nat_of_ascii c with
  | 9 | 10 | 11 | 12 | 13 | 32 | 160 => true
  | _ => false
  end.

Fixpoint trim_start (s : string) : string :=
  match s with
  | EmptyString => EmptyString
  | String c rest => if is_white_space c then trim_start rest else s
  end.

Definition digit_value (c : ascii) : option Z :=
  let n := nat_of_ascii c in
  if (48 <=? n)%nat && (n <=? 57)%nat then Some (Z.of_nat (n - 48)) else None.

Fixpoint parse_digits (acc : option Z) (s : string) : option Z :=
  match s with
  | EmptyString => acc
  | String c rest =>
      match digit_value c with
      | Some d => parse_digits (Some (10 * default 0%Z acc + d)%Z) rest
      | None => acc
      end
  end.

Definition parseInt10 (s : string) : number :=
  let trimmed := trim_start s in
  let '(sign, digits) :=
    match trimmed with
    | String "-" rest => ((-1)%Z, rest)
    | String "+" rest => (1%Z, rest)
    | _ => (1%Z, trimmed)
    end in
  match parse_digits None digits with
  | None => NaN
  | Some m => of_integer (sign * m) (sign <? 0)%Z
  end.

(** [!value] for [value : string | null | undefined]; [None] is
    [null]/[undefined]. *)
Definition falsy (value : option string) : bool :=
  match value with
  | None => true
  | Some s => String.eqb s EmptyString
  end.

Section Errors.

(** The platform's [Headers] class: [get(name)] is the header's value,
    or [null]. *)
Variable Headers : Type.
Variable Headers_get : Headers -> string -> option string.

(** An instance of [APIError] or of a subclass.  [headers] is [None]
    when the argument is left out; [retryAfter] is [None] when the
    property is [undefined]. *)
Record ErrorObject := mkErrorObject {
  name : string;
  message : string;
  status : Z;
  body : val;
  headers : option Headers;
  retryAfter : option number
}.

Definition set_name (n : string) (this : ErrorObject) : ErrorObject :=
  {| name := n; message := message this; status := status this;
     body := body this; headers := headers this;
     retryAfter := retryAfter this |}.

Definition set_retryAfter (r : option number) (this : ErrorObject)
  : ErrorObject :=
  {| name := name this; message := message this; status := status this;
     body := body this; headers := headers this;
     retryAfter := r |}.

(** [new APIError(message, status, body, headers)]: [super(message)],
    the parameter properties, then [this.name = 'APIError']. *)
Definition new_APIError (msg : string) (st : Z) (b : val)
    (hs : option Headers) : ErrorObject :=
  let this := {| name := err_name (new_Error msg);
                 message := err_message (new_Error msg);
                 status := st; body := b; headers := hs;
                 retryAfter := None |} in
  set_name "APIError" this.

Definition parseRetryAfter (hs : option Headers) : option number :=
  let value := hs ≫= (fun h => Headers_get h "retry-after") in
  if falsy value then None
  else
    let seconds := parseInt10 (default EmptyString value) in
    if isNaN seconds then None else Some (times seconds (Int 1000)).

(** [new RateLimitError(message, body, headers)]. *)
Definition new_RateLimitError (msg : string) (b : val)
    (hs : option Headers) : ErrorObject :=
  let this := new_APIError msg 429 b hs in
  let this := set_name "RateLimitError" this in
  set_retryAfter (parseRetryAfter hs) this.

End Errors.

Arguments name {Headers} _.
Arguments message {Headers} _.
Arguments status {Headers} _.
Arguments body {Headers} _.
Arguments headers {Headers} _.
Arguments retryAfter {Headers} _.

(** A model of the Fetch [Headers] for concrete runs: a header list;
    names compare without case, the values of a repeated name are joined
    with [", "]. *)
Definition lower (c : ascii) : ascii :=
  let n := nat_of_ascii c in
  if (65 <=? n)%nat && (n <=? 90)%nat then ascii_of_nat (n + 32) else c.

Fixpoint lowercase (s : string) : string :=
  match s with
  | EmptyString => EmptyString
  | String c rest => String (lower c) (lowercase rest)
  end.

Definition FetchHeaders := list (string * string).

Definition FetchHeaders_get (hs : FetchHeaders) (n : string) : option string :=
  match filter (fun nv => String.eqb (lowercase nv.1) (lowercase n)) hs with
  | [] => None
  | nv :: more =>
      Some (fold_left (fun acc nv' => acc ++ ", " ++ nv'.2) more nv.2)
  end.

End HttpClient.

(* ===================================================================== *)
(** ** Exercise 05: the subclasses of [APIError]                          *)
(* ===================================================================== *)

Module HttpErrors.

Import HttpClient.

(** The classes declared with [extends APIError]. *)
Inductive ErrorClass :=
| BadRequest
| Authentication
| PermissionDenied
| NotFound
| RateLimit
| InternalServer.

Section Subclasses.

Variable Headers : Type.
Variable Headers_get : Headers -> string -> option string.

(** Each constructor is [super(message, <code>, body, headers)] followed
    by [this.name = '<class name>']. *)
Definition new_BadRequestError (msg : string) (b : val)
    (hs : option Headers) : ErrorObject Headers :=
  set_name Headers "BadRequestError" (new_APIError Headers msg 400 b hs).

Definition new_AuthenticationError (msg : string) (b : val)
    (hs : option Headers) : ErrorObject Headers :=
  set_name Headers "AuthenticationError" (new_APIError Headers msg 401 b hs).

Definition new_PermissionDeniedError (msg : string) (b : val)
    (hs : option Headers) : ErrorObject Headers :=
  set_name Headers "PermissionDeniedError" (new_APIError Headers msg 403 b hs).

Definition new_NotFoundError (msg : string) (b : val)
    (hs : option Headers) : ErrorObject Headers :=
  set_name Headers "NotFoundError" (new_APIError Headers msg 404 b hs).

Definition new_InternalServerError (msg : string) (b : val)
    (hs : option Headers) : ErrorObject Headers :=
  set_name Headers "InternalServerError" (new_APIError Headers msg 500 b hs).

(** [new C(message, body, headers)] for a class [C] of the list. *)
Definition construct (c : ErrorClass) (msg : string) (b : val)
    (hs : option Headers) : ErrorObject Headers :=
  match c with
  | BadRequest => new_BadRequestError msg b hs
  | Authentication => new_AuthenticationError msg b hs
  | PermissionDenied => new_PermissionDeniedError msg b hs
  | NotFound => new_NotFoundError msg b hs
  | RateLimit => new_RateLimitError Headers Headers_get msg b hs
  | InternalServer => new_InternalServerError msg b hs
  end.

End Subclasses.

(** The decimal numeral of an integer: digits, with [-] in front of a
    negative one. *)
Definition decimal (n : Z) : string :=
  DecimalString.NilZero.string_of_int (Z.to_int n).

(** A text that begins with a decimal digit. *)
Definition leading_digit (s : string) : bool :=
  match s with
  | String c _ => match digit_value c with Some _ => true | None => false end
  | EmptyString => false
  end.

(** Header values that begin, after white space, with an optional sign
    and a decimal digit. *)
Definition starts_with_integer (value : string) : bool :=
  leading_digit
    match trim_start value with
    | String "-" rest => rest
    | String "+" rest => rest
    | other => other
    end.

(** A text that does not continue a numeral: empty, or beginning with a
    character that is no decimal digit. *)
Definition no_leading_digit (tail : string) : bool :=
  negb (leading_digit tail).

Fixpoint all_white_space (s : string) : bool :=
  match s with
  | EmptyString => true
  | String c rest => is_white_space c && all_white_space rest
  end.

End HttpErrors.

(* ===================================================================== *)
(** ** The error mapping sketched in HINT 5 of exercise 05                *)
(* ===================================================================== *)

(** As for the pointer parser, the exported [mapStatusToError] is a stub
    and the file's HINT 5 sketches the intended body; the sketch is a
    comment of the source and is embedded as such. *)
Module ClientHint5.

Import HttpClient HttpErrors.

Section MapStatus.

Variable Headers : Type.
Variable Headers_get : Headers -> string -> option string.

Definition mapStatusToError (st : Z) (msg : string) (b : val)
    (hs : option Headers) : ErrorObject Headers :=
  if (st =? 400)%Z then new_BadRequestError Headers msg b hs
  else if (st =? 401)%Z then new_AuthenticationError Headers msg b hs
  else if (st =? 403)%Z then new_PermissionDeniedError Headers msg b hs
  else if (st =? 404)%Z then new_NotFoundError Headers msg b hs
  else if (st =? 429)%Z then new_RateLimitError Headers Headers_get msg b hs
  else if (st >=? 500)%Z then new_InternalServerError Headers msg b hs
  else new_APIError Headers msg st b hs.

End MapStatus.

End ClientHint5.

(* ===================================================================== *)
(** ** Properties of the resolver                                         *)
(* ===================================================================== *)

(** C1.  For every input, each of the six exported functions of the
    resolver throws an [Error] whose message is ['Not implemented'] and
    returns no value (and, on the way, leaves the heap as it found it). *)
Theorem ref_resolver_stubs_throw_not_implemented :
  forall (pointer : string) (path : list string) (schema document : val)
         (options : option ResolveOptions) (h : heap),
    let thrown {A} (c : heap * completion A) :=
      c = (h, Throw (new_Error "Not implemented")) /\ returns (snd c) = false in
    thrown (parseJsonPointer pointer h) /\
    thrown (resolvePointer document path h) /\
    thrown (resolveRefs schema document options h) /\
    thrown (resolveDocument document options h) /\
    thrown (hasUnresolvedRefs schema h) /\
    thrown (collectRefs schema h).
Proof.
  intros pointer path schema document options h thrown.
  repeat split.
Qed.

(** C6.  For every schema and document (in every heap),
    [resolveRefs(schema, document, { mutate: false })] leaves the heap as
    it was: no cell is written, so the deep reading of [schema] and of
    [document] after the call is the one before it. *)
Theorem resolveRefs_mutate_false_leaves_inputs :
  forall (schema document : val) (h : heap),
    let h' := fst (resolveRefs schema document (options_with None (Some false)) h) in
    h' = h /\
    forall fuel : nat,
      snapshot fuel h' schema = snapshot fuel h schema /\
      snapshot fuel h' document = snapshot fuel h document.
Proof.
  intros schema document h h'.
  assert (Hframe : h' = h) by reflexivity.
  split; [exact Hframe|].
  intros fuel. rewrite Hframe. split; reflexivity.
Qed.

(** C2 (the code departs from it).  On the document of the mark-mode test,
    where [Node.properties.children.items] is a reference to [Node],
    [resolveRefs(Node, doc, { circularHandling: 'mark' })] throws
    ['Not implemented']: it returns no output and no [circularRefs]. *)
Theorem resolveRefs_mark_self_reference_throws :
  let '(doc, h) := alloc circularDoc_mark [] in
  let node := component_schema h doc "Node" in
  snapshot 8 h (get_prop h (get_prop h (get_prop h node "properties") "children") "items")
    = Some (schema_ref "#/components/schemas/Node") /\
  resolveRefs node doc (options_with (Some ch_mark) None) h
    = (h, Throw (new_Error "Not implemented")).
Proof. vm_compute. split; reflexivity. Qed.

(** C3 (the code departs from it).  On the document of the error-mode
    test, where schema [A] is a reference to [A], [resolveRefs] throws
    ['Not implemented'] under [circularHandling: 'error'], which is not a
    circular-reference error, and throws the same under
    [circularHandling: 'lazy'] instead of returning the reference. *)
Theorem resolveRefs_direct_self_reference_throws :
  let '(doc, h) := alloc circularDoc_A [] in
  let a := component_schema h doc "A" in
  snapshot 8 h a = Some (schema_ref "#/components/schemas/A") /\
  (exists e : Error,
      resolveRefs a doc (options_with (Some ch_error) None) h = (h, Throw e) /\
      err_message e = "Not implemented" /\
      is_circular_reference_error e = false) /\
  resolveRefs a doc (options_with (Some ch_lazy) None) h
    = (h, Throw (new_Error "Not implemented")).
Proof.
  vm_compute. split; [reflexivity|]. split; [|reflexivity].
  exists (new_Error "Not implemented"). repeat split.
Qed.

(** C4 (the code departs from it).  [parseJsonPointer('#/a~1b/c~0d')]
    throws ['Not implemented'] in every heap: it yields no segments to
    re-join, and is not [['a/b', 'c~d']]. *)
Theorem parseJsonPointer_complex_escaping_throws :
  forall h : heap,
    parseJsonPointer "#/a~1b/c~0d" h = (h, Throw (new_Error "Not implemented")) /\
    snd (parseJsonPointer "#/a~1b/c~0d" h) <> Return ["a/b"; "c~d"].
Proof.
  intros h. split; [reflexivity|]. cbn. discriminate.
Qed.

(** C5 (the code departs from it).  On [{ $ref: './other.yaml#/schemas/Foo' }]
    and [baseDoc], [resolveRefs] throws ['Not implemented'], under every
    circular-handling policy and without options: the error is not an
    external-reference error and does not name the pointer. *)
Theorem resolveRefs_external_reference_throws :
  let '(doc, h0) := alloc baseDoc [] in
  let '(schema, h) := alloc (schema_ref "./other.yaml#/schemas/Foo") h0 in
  forall options : option ResolveOptions,
  exists e : Error,
    resolveRefs schema doc options h = (h, Throw e) /\
    err_message e = "Not implemented" /\
    is_external_reference_error "./other.yaml#/schemas/Foo" e = false.
Proof.
  vm_compute. intros options.
  exists (new_Error "Not implemented"). repeat split.
Qed.

(** C7 (the code departs from it).
    [resolvePointer({ items: ['a','b','c'] }, ['items','1'])] throws
    ['Not implemented'] and does not return ['b']. *)
Theorem resolvePointer_array_index_throws :
  let '(doc, h) := alloc docWithArray [] in
  snapshot 8 h doc = Some docWithArray /\
  resolvePointer doc ["items"; "1"] h = (h, Throw (new_Error "Not implemented")) /\
  snd (resolvePointer doc ["items"; "1"] h) <> Return (VStr "b").
Proof.
  vm_compute. repeat split. discriminate.
Qed.

(** C8 (the code departs from it).  [parseJsonPointer('#')] throws
    ['Not implemented'] in every heap and does not return the empty
    segment list. *)
Theorem parseJsonPointer_root_throws :
  forall h : heap,
    parseJsonPointer "#" h = (h, Throw (new_Error "Not implemented")) /\
    snd (parseJsonPointer "#" h) <> Return [].
Proof.
  intros h. split; [reflexivity|]. cbn. discriminate.
Qed.

(** C9 (the code departs from it).  On the schema
    [{ oneOf: [{ $ref: A }, { $ref: B }] }] of the test-suite,
    [collectRefs] throws ['Not implemented'] and returns no set; it does
    the same on [{ type: 'string' }], which holds no reference. *)
Theorem collectRefs_oneOf_throws :
  let '(schema, h) := alloc oneOf_schema [] in
  let '(plain, h') := alloc string_schema h in
  snapshot 8 h schema = Some oneOf_schema /\
  collectRefs schema h = (h, Throw (new_Error "Not implemented")) /\
  collectRefs plain h' = (h', Throw (new_Error "Not implemented")).
Proof.
  vm_compute. repeat split.
Qed.

(* ===================================================================== *)
(** ** Properties of the typed HTTP errors                                *)
(* ===================================================================== *)

Import HttpClient.

Lemma falsy_parseInt10 (value : option string) :
  falsy value = true -> parseInt10 (default EmptyString value) = NaN.
Proof.
  destruct value as [s|]; cbn; [|reflexivity].
  destruct (String.eqb_spec s EmptyString) as [->|]; [reflexivity|discriminate].
Qed.

(** The three outcomes of [parseRetryAfter], read off the header. *)
Lemma parseRetryAfter_spec (Headers : Type)
    (Headers_get : Headers -> string -> option string) (hs : option Headers) :
  parseRetryAfter Headers Headers_get hs =
    match hs ≫= (fun h => Headers_get h "retry-after") with
    | None => None
    | Some value =>
        if isNaN (parseInt10 value) then None
        else Some (times (parseInt10 value) (Int 1000))
    end.
Proof.
  unfold parseRetryAfter.
  destruct (hs ≫= _) as [value|] eqn:Hget; [|reflexivity].
  destruct (falsy (Some value)) eqn:Hfalsy; [|reflexivity].
  apply falsy_parseInt10 in Hfalsy. cbn in Hfalsy. rewrite Hfalsy. reflexivity.
Qed.

(** C10.  For every message, body and headers (and every implementation of
    the platform's [Headers.get]), [new RateLimitError(message, body,
    headers)] has [status] 429 and [name] ['RateLimitError']; its
    [retryAfter] is [parseInt(value, 10) * 1000], the product of
    JavaScript numbers, when the ['retry-after'] header is present with
    a value that parses to a number, and [undefined] when the header (or
    [headers]) is absent or the value parses to [NaN]. *)
Theorem RateLimitError_status_name_retryAfter :
  forall (Headers : Type) (Headers_get : Headers -> string -> option string)
         (msg : string) (b : val) (hs : option Headers),
    let e := new_RateLimitError Headers Headers_get msg b hs in
    status e = 429%Z /\
    name e = "RateLimitError" /\
    retryAfter e =
      match hs ≫= (fun h => Headers_get h "retry-after") with
      | None => None
      | Some value =>
          if isNaN (parseInt10 value) then None
          else Some (times (parseInt10 value) (Int 1000))
      end.
Proof.
  intros Headers Headers_get msg b hs e.
  split; [reflexivity|]. split; [reflexivity|].
  subst e. cbn [new_RateLimitError set_retryAfter retryAfter].
  apply parseRetryAfter_spec.
Qed.

(** The constructor keeps the message, the body and the headers it is
    given. *)
Lemma RateLimitError_keeps_arguments (Headers : Type)
    (Headers_get : Headers -> string -> option string)
    (msg : string) (b : val) (hs : option Headers) :
  let e := new_RateLimitError Headers Headers_get msg b hs in
  message e = msg /\ body e = b /\ headers e = hs.
Proof. repeat split. Qed.

(** Runs on the Fetch model of [Headers]: the header of the test-suite,
    a name in mixed case with a value that has trailing text, an HTTP date, an
    empty value, a missing header, missing headers. *)
Example RateLimitError_retry_after_60 :
  retryAfter (new_RateLimitError FetchHeaders FetchHeaders_get "Too many" VUndefined
                (Some [("retry-after", "60")])) = Some (Int 60000).
Proof. vm_compute. reflexivity. Qed.

Example RateLimitError_retry_after_mixed_case_name :
  retryAfter (new_RateLimitError FetchHeaders FetchHeaders_get "Too many" VUndefined
                (Some [("Content-Type", "text/plain"); ("Retry-After", "12 seconds")]))
    = Some (Int 12000).
Proof. vm_compute. reflexivity. Qed.

Example RateLimitError_retry_after_http_date :
  retryAfter (new_RateLimitError FetchHeaders FetchHeaders_get "Too many" VUndefined
                (Some [("retry-after", "Wed, 21 Oct 2015 07:28:00 GMT")])) = None.
Proof. reflexivity. Qed.

Example RateLimitError_retry_after_empty_value :
  retryAfter (new_RateLimitError FetchHeaders FetchHeaders_get "Too many" VUndefined
                (Some [("retry-after", "")])) = None.
Proof. reflexivity. Qed.

Example RateLimitError_retry_after_absent :
  retryAfter (new_RateLimitError FetchHeaders FetchHeaders_get "Too many" VUndefined
                (Some [("content-type", "text/plain")])) = None
  /\ retryAfter (new_RateLimitError FetchHeaders FetchHeaders_get "Too many" VUndefined
                   None) = None.
Proof. split; reflexivity. Qed.

(* ===================================================================== *)
(** ** What the parser of HINT 1 computes                                 *)
(* ===================================================================== *)

(** The sketch meets the expectations of the [parseJsonPointer] tests. *)
Example hint1_parse_tests :
  Hint1.parseJsonPointer "#/components/schemas/User"
    = Return ["components"; "schemas"; "User"] /\
  Hint1.parseJsonPointer "#" = Return [] /\
  Hint1.parseJsonPointer "#/paths/~1users~1{id}/get"
    = Return ["paths"; "/users/{id}"; "get"] /\
  Hint1.parseJsonPointer "#/definitions/foo~0bar"
    = Return ["definitions"; "foo~bar"] /\
  Hint1.parseJsonPointer "#/a~1b/c~0d" = Return ["a/b"; "c~d"] /\
  returns (Hint1.parseJsonPointer "not-a-pointer") = false /\
  returns (Hint1.parseJsonPointer "/no-hash") = false.
Proof. repeat split. Qed.

(** [~01] stands for [~] followed by [1], not for [/]. *)
Example hint1_unescape_tilde_zero_one :
  Hint1.unescapePointer "~01" = "~1".
Proof. reflexivity. Qed.

(** [#/] alone parses to one empty segment, not to the root. *)
Example hint1_parse_hash_slash :
  Hint1.parseJsonPointer "#/" = Return [""].
Proof. reflexivity. Qed.

(** The sketch throws on every string that does not begin with [#]. *)
Lemma hint1_parse_rejects_no_hash (pointer : string) :
  Hint1.startsWith "#" pointer = false ->
  Hint1.parseJsonPointer pointer
    = Throw (new_Error ("Invalid JSON pointer: " ++ pointer)).
Proof.
  intros Hno. unfold Hint1.parseJsonPointer.
  assert (Hno2 : Hint1.startsWith "#/" pointer = false).
  { destruct pointer as [|c rest]; [reflexivity|].
    unfold Hint1.startsWith in *. cbn [String.prefix] in *.
    destruct (ascii_dec "#" c) as [Heq|Hc]; [|reflexivity].
    destruct rest; discriminate Hno. }
  rewrite Hno2, Hno. reflexivity.
Qed.

Section RoundTrip.

Import Hint1.

Local Ltac ascii_cases c := destruct c as [[] [] [] [] [] [] [] []].

Lemma well_escaped_other (c : ascii) (s : string) :
  c <> "~"%char -> well_escaped (String c s) = well_escaped s.
Proof.
  intros Hc. ascii_cases c; try reflexivity. contradiction Hc; reflexivity.
Qed.

Lemma well_escaped_tilde (d : ascii) (s : string) :
  well_escaped (String "~" (String d s)) = true ->
  (d = "0"%char \/ d = "1"%char) /\ well_escaped s = true.
Proof.
  ascii_cases d; cbn; intros H; try discriminate H; auto.
Qed.

Lemma replace_tilde1_other (c : ascii) (s : string) :
  c <> "~"%char -> replace_tilde1 (String c s) = String c (replace_tilde1 s).
Proof.
  intros Hc. ascii_cases c; try reflexivity. contradiction Hc; reflexivity.
Qed.

Lemma replace_tilde0_other (c : ascii) (s : string) :
  c <> "~"%char -> replace_tilde0 (String c s) = String c (replace_tilde0 s).
Proof.
  intros Hc. ascii_cases c; try reflexivity. contradiction Hc; reflexivity.
Qed.

Lemma unescapePointer_other (c : ascii) (s : string) :
  c <> "~"%char -> unescapePointer (String c s) = String c (unescapePointer s).
Proof.
  intros Hc. unfold unescapePointer.
  rewrite replace_tilde1_other, replace_tilde0_other by exact Hc. reflexivity.
Qed.

Lemma unescapePointer_tilde0 (s : string) :
  unescapePointer (String "~" (String "0" s)) = String "~" (unescapePointer s).
Proof. reflexivity. Qed.

Lemma unescapePointer_tilde1 (s : string) :
  unescapePointer (String "~" (String "1" s)) = String "/" (unescapePointer s).
Proof. reflexivity. Qed.

Lemma escapePointer_other (c : ascii) (s : string) :
  c <> "~"%char -> c <> "/"%char ->
  escapePointer (String c s) = String c (escapePointer s).
Proof.
  intros Ht Hs. cbn.
  destruct (Ascii.eqb_spec c "~"); [contradiction|].
  destruct (Ascii.eqb_spec c "/"); [contradiction|]. reflexivity.
Qed.

Lemma split_slash_nonempty (s : string) : split_slash s <> [].
Proof.
  destruct s as [|c s]; cbn; [discriminate|].
  destruct (Ascii.eqb c "/"); [discriminate|].
  destruct (split_slash s); discriminate.
Qed.

Lemma split_slash_other (c : ascii) (s : string) :
  c <> "/"%char ->
  exists piece pieces,
    split_slash s = piece :: pieces /\
    split_slash (String c s) = String c piece :: pieces.
Proof.
  intros Hc. cbn. destruct (Ascii.eqb_spec c "/"); [contradiction|].
  destruct (split_slash s) as [|piece pieces] eqn:Hsplit.
  - exfalso. exact (split_slash_nonempty s Hsplit).
  - exists piece, pieces. split; reflexivity.
Qed.

Lemma join_slash_cons (c : ascii) (piece : string) (pieces : list string) :
  join_slash (String c piece :: pieces) = String c (join_slash (piece :: pieces)).
Proof. destruct pieces; reflexivity. Qed.

Lemma join_slash_empty_head (piece : string) (pieces : list string) :
  join_slash (EmptyString :: piece :: pieces)
    = String "/" (join_slash (piece :: pieces)).
Proof. reflexivity. Qed.

(** Induction along the escape tokens of a well-escaped string. *)
Lemma well_escaped_ind (P : string -> Prop) :
  P EmptyString ->
  (forall rest, well_escaped rest = true -> P rest ->
                P (String "~" (String "0" rest))) ->
  (forall rest, well_escaped rest = true -> P rest ->
                P (String "~" (String "1" rest))) ->
  (forall c rest, c <> "~"%char -> well_escaped rest = true -> P rest ->
                  P (String c rest)) ->
  forall s, well_escaped s = true -> P s.
Proof.
  intros Hnil H0 H1 Hc s.
  assert (Hlen : forall n s', (String.length s' <= n)%nat ->
                              well_escaped s' = true -> P s').
  { induction n as [|n IH]; intros s' Hle Hwe.
    - destruct s'; [exact Hnil|cbn in Hle; lia].
    - destruct s' as [|c rest]; [exact Hnil|].
      cbn in Hle.
      destruct (ascii_dec c "~") as [->|Hneq].
      + destruct rest as [|d rest']; [discriminate Hwe|].
        cbn in Hle.
        destruct (well_escaped_tilde _ _ Hwe) as [[-> | ->] Hrest].
        * apply H0; [exact Hrest|]. apply IH; [lia|exact Hrest].
        * apply H1; [exact Hrest|]. apply IH; [lia|exact Hrest].
      + rewrite well_escaped_other in Hwe by exact Hneq.
        apply Hc; [exact Hneq|exact Hwe|]. apply IH; [lia|exact Hwe]. }
  intros Hwe. exact (Hlen (String.length s) s (le_n _) Hwe).
Qed.

(** Splitting, unescaping, re-escaping and joining is the identity on a
    well-escaped string. *)
Lemma split_unescape_escape_join (s : string) :
  well_escaped s = true ->
  join_slash (map escapePointer (map unescapePointer (split_slash s))) = s.
Proof.
  revert s. apply well_escaped_ind.
  - reflexivity.
  - intros rest _ IH.
    destruct (split_slash_other "0" rest) as (piece & pieces & Hrest & H0);
      [discriminate|].
    destruct (split_slash_other "~" (String "0" rest))
      as (piece' & pieces' & Hrest' & Hsplit); [discriminate|].
    rewrite Hsplit. rewrite H0 in Hrest'. injection Hrest' as <- <-.
    rewrite Hrest in IH. cbn [map] in *.
    rewrite unescapePointer_tilde0. cbn [escapePointer Ascii.eqb Bool.eqb].
    rewrite !join_slash_cons. rewrite IH. reflexivity.
  - intros rest _ IH.
    destruct (split_slash_other "1" rest) as (piece & pieces & Hrest & H1);
      [discriminate|].
    destruct (split_slash_other "~" (String "1" rest))
      as (piece' & pieces' & Hrest' & Hsplit); [discriminate|].
    rewrite Hsplit. rewrite H1 in Hrest'. injection Hrest' as <- <-.
    rewrite Hrest in IH. cbn [map] in *.
    rewrite unescapePointer_tilde1. cbn [escapePointer Ascii.eqb Bool.eqb].
    rewrite !join_slash_cons. rewrite IH. reflexivity.
  - intros c rest Htilde _ IH.
    destruct (ascii_dec c "/") as [->|Hslash].
    + change (split_slash (String "/" rest))
        with (EmptyString :: split_slash rest).
      destruct (split_slash rest) as [|piece pieces] eqn:Hrest.
      * exfalso. exact (split_slash_nonempty rest Hrest).
      * cbn [map] in *.
        change (escapePointer (unescapePointer EmptyString)) with EmptyString.
        rewrite join_slash_empty_head. rewrite IH. reflexivity.
    + destruct (split_slash_other c rest Hslash)
        as (piece & pieces & Hrest & Hsplit).
      rewrite Hsplit. rewrite Hrest in IH. cbn [map] in *.
      rewrite unescapePointer_other by exact Htilde.
      rewrite escapePointer_other by assumption.
      rewrite join_slash_cons. rewrite IH. reflexivity.
Qed.

Lemma startsWith_hash_slash (p : string) :
  startsWith "#/" p = true -> p = "#/" ++ slice2 p.
Proof.
  unfold startsWith. destruct p as [|c [|d rest]]; cbn [String.prefix slice2];
    try discriminate.
  - destruct (ascii_dec "#" c); discriminate.
  - destruct (ascii_dec "#" c) as [<-|]; [|discriminate].
    destruct (ascii_dec "/" d) as [<-|]; [|discriminate].
    reflexivity.
Qed.

(** The round-trip law for the sketch: parsing a valid pointer that
    begins with [#/] and formatting the segments gives the pointer
    back. *)
Lemma hint1_round_trip (p : string) :
  valid_pointer p = true ->
  exists segments : list string,
    Hint1.parseJsonPointer p = Return segments /\
    formatJsonPointer segments = p.
Proof.
  unfold valid_pointer. intros Hvalid.
  apply andb_prop in Hvalid as [Hstart Hwe].
  exists (map unescapePointer (split_slash (slice2 p))). split.
  - unfold Hint1.parseJsonPointer. rewrite Hstart. reflexivity.
  - unfold formatJsonPointer.
    rewrite split_unescape_escape_join by exact Hwe.
    symmetry. apply startsWith_hash_slash. exact Hstart.
Qed.

End RoundTrip.

(* ===================================================================== *)
(** ** Further properties of the typed HTTP errors                        *)
(* ===================================================================== *)

Import HttpErrors.

(** X1.  Whatever the arguments, an instance of a subclass of [APIError]
    carries the status code of its class and the name of its class (the
    name that the base constructor wrote is overwritten), and keeps the
    message, body and headers it was given. *)
Theorem http_error_class_fixes_status_and_name :
  forall (Headers : Type) (Headers_get : Headers -> string -> option string)
         (c : ErrorClass) (msg : string) (b : val) (hs : option Headers),
    let e := construct Headers Headers_get c msg b hs in
    status e = match c with
               | BadRequest => 400 | Authentication => 401
               | PermissionDenied => 403 | NotFound => 404
               | RateLimit => 429 | InternalServer => 500
               end%Z /\
    name e = match c with
             | BadRequest => "BadRequestError"
             | Authentication => "AuthenticationError"
             | PermissionDenied => "PermissionDeniedError"
             | NotFound => "NotFoundError"
             | RateLimit => "RateLimitError"
             | InternalServer => "InternalServerError"
             end /\
    message e = msg /\ body e = b /\ headers e = hs.
Proof.
  intros Headers Headers_get c msg b hs e. subst e.
  destruct c; repeat split.
Qed.

(** X2.  The class of an instance can be read off its [status] as well as
    off its [name]: two instances that agree on either one were built by
    the same class, whatever their other arguments. *)
Theorem http_error_class_read_off_status_or_name :
  forall (Headers : Type) (Headers_get : Headers -> string -> option string)
         (c c' : ErrorClass) (msg msg' : string) (b b' : val)
         (hs hs' : option Headers),
    let e := construct Headers Headers_get c msg b hs in
    let e' := construct Headers Headers_get c' msg' b' hs' in
    status e = status e' \/ name e = name e' ->
    c = c'.
Proof.
  intros Headers Headers_get c c' msg msg' b b' hs hs' e e' Hsame.
  subst e e'.
  destruct c, c'; try reflexivity;
    destruct Hsame as [H | H]; cbn in H; discriminate H.
Qed.

Lemma http_error_class_read_off_status_or_name_witness :
  NotFound = NotFound.
Proof.
  apply (http_error_class_read_off_status_or_name
           FetchHeaders FetchHeaders_get NotFound NotFound
           "Not found" "No such user" VUndefined VNull None (Some [])).
  left. reflexivity.
Defined.

(** X3.  Only [RateLimitError] reads the [retry-after] header: an instance
    of any other subclass (an [InternalServerError] built for a 503, say)
    has no [retryAfter], whatever its headers hold. *)
Theorem only_RateLimitError_has_retryAfter :
  forall (Headers : Type) (Headers_get : Headers -> string -> option string)
         (c : ErrorClass) (msg : string) (b : val) (hs : option Headers),
    c <> RateLimit ->
    retryAfter (construct Headers Headers_get c msg b hs) = None.
Proof.
  intros Headers Headers_get c msg b hs Hclass.
  destruct c; try reflexivity. contradiction Hclass; reflexivity.
Qed.

Lemma only_RateLimitError_has_retryAfter_witness :
  retryAfter (construct FetchHeaders FetchHeaders_get InternalServer
                "Service unavailable" VUndefined
                (Some [("retry-after", "120")])) = None.
Proof.
  apply (only_RateLimitError_has_retryAfter FetchHeaders FetchHeaders_get
           InternalServer "Service unavailable" VUndefined
           (Some [("retry-after", "120")])).
  discriminate.
Defined.

Section Binary64.

Local Open Scope Z_scope.

(** Shifting and rounding keep a mantissa that is not negative, so
    rounding never ends in the [NaN] branch of [binary_round_aux]. *)
Lemma shr_1_nonneg (mrs : shr_record) :
  0 <= shr_m mrs -> 0 <= shr_m (shr_1 mrs).
Proof.
  destruct mrs as [m r s]. destruct m as [|[p|p|]|[p|p|]]; cbn; lia.
Qed.

Lemma iter_pos_shr_1_nonneg (n : positive) (mrs : shr_record) :
  0 <= shr_m mrs -> 0 <= shr_m (SpecFloat.iter_pos shr_1 n mrs).
Proof.
  revert mrs. induction n as [n IH|n IH|]; intros mrs Hm; cbn.
  - apply IH, IH, shr_1_nonneg, Hm.
  - apply IH, IH, Hm.
  - apply shr_1_nonneg, Hm.
Qed.

Lemma shr_fexp_nonneg (m e : Z) (l : location) :
  0 <= m -> 0 <= shr_m (fst (shr_fexp 53 1024 m e l)).
Proof.
  intros Hm. unfold shr_fexp, shr.
  assert (Hrec : 0 <= shr_m (shr_record_of_loc m l))
    by (destruct l as [|[]]; exact Hm).
  destruct (fexp 53 1024 (Zdigits2 m + e) - e); cbn [fst];
    [exact Hrec|apply iter_pos_shr_1_nonneg, Hrec|exact Hrec].
Qed.

Lemma round_nearest_even_nonneg (m : Z) (l : location) :
  0 <= m -> 0 <= round_nearest_even m l.
Proof.
  intros Hm. destruct l as [|[]]; cbn; try lia.
  destruct (Z.even m); lia.
Qed.

Lemma binary_round_aux_not_NaN (s : bool) (m e : Z) (l : location) :
  0 <= m -> binary_round_aux 53 1024 s m e l <> S754_nan.
Proof.
  intros Hm. unfold binary_round_aux.
  pose proof (shr_fexp_nonneg m e l Hm) as H1.
  destruct (shr_fexp 53 1024 m e l) as [mrs' e']. cbn [fst] in H1.
  pose proof (shr_fexp_nonneg
                (round_nearest_even (shr_m mrs') (loc_of_shr_record mrs'))
                e' loc_Exact (round_nearest_even_nonneg _ _ H1)) as H2.
  destruct (shr_fexp 53 1024 _ e' loc_Exact) as [mrs'' e'']. cbn [fst] in H2.
  destruct (shr_m mrs'') as [|p|p]; [discriminate| |lia].
  destruct (e'' <=? 1024 - 53); discriminate.
Qed.

Lemma of_integer_not_NaN (n : Z) (negative_zero : bool) :
  of_integer n negative_zero <> NaN.
Proof.
  unfold of_integer, binary_normalize, binary_round, NaN.
  destruct n as [|p|p]; [discriminate| |];
    destruct (shl_align p 0 _) as [mz ez];
    apply binary_round_aux_not_NaN; lia.
Qed.

Lemma Int_1000 : Int 1000 = S754_finite false 8796093022208000 (-43).
Proof. vm_compute. reflexivity. Qed.

Lemma times_1000_not_NaN (x : number) :
  x <> NaN -> times x (Int 1000) <> NaN.
Proof.
  intros Hx. rewrite Int_1000. unfold times, NaN in *.
  destruct x as [s|s| |s m e]; cbn [SFmul];
    [discriminate|discriminate|contradiction Hx; reflexivity|].
  apply binary_round_aux_not_NaN. lia.
Qed.

Lemma isNaN_true (x : number) : isNaN x = true <-> x = NaN.
Proof. unfold NaN. destruct x; cbn; split; intros H; congruence. Qed.

End Binary64.

(** X4.  The [retryAfter] of a [RateLimitError] is never [NaN]: a header
    value that does not parse leaves it [undefined], and the product of
    a parsed number with 1000 is a number (a zero, a finite value or an
    infinity). *)
Theorem RateLimitError_retryAfter_never_NaN :
  forall (Headers : Type) (Headers_get : Headers -> string -> option string)
         (msg : string) (b : val) (hs : option Headers),
    let e := new_RateLimitError Headers Headers_get msg b hs in
    forall x : number, retryAfter e = Some x -> isNaN x = false.
Proof.
  intros Headers Headers_get msg b hs e x. subst e.
  cbn [new_RateLimitError set_retryAfter retryAfter].
  rewrite parseRetryAfter_spec.
  destruct (hs ≫= _) as [value|]; [|discriminate].
  destruct (isNaN (parseInt10 value)) eqn:Hparse; [discriminate|].
  intros Hx. injection Hx as <-.
  apply Bool.not_true_is_false. intros Hprod. apply isNaN_true in Hprod.
  apply (times_1000_not_NaN (parseInt10 value)); [|exact Hprod].
  intros Habs. apply isNaN_true in Habs. congruence.
Qed.

Lemma RateLimitError_retryAfter_never_NaN_witness :
  isNaN (Int 60000) = false.
Proof.
  apply (RateLimitError_retryAfter_never_NaN FetchHeaders FetchHeaders_get
           "Too many" VUndefined (Some [("retry-after", "60")]) (Int 60000)).
  vm_compute. reflexivity.
Defined.

Section ParseInt.

Local Ltac ascii_split c := destruct c as [[] [] [] [] [] [] [] []].

Lemma parse_digits_Some (s : string) (acc : Z) :
  is_Some (parse_digits (Some acc) s).
Proof.
  revert acc. induction s as [|c rest IH]; intros acc; cbn.
  - eexists; reflexivity.
  - destruct (digit_value c); [apply IH|eexists; reflexivity].
Qed.

Lemma parse_digits_None (s : string) :
  parse_digits None s = None <-> leading_digit s = false.
Proof.
  destruct s as [|c rest]; cbn; [tauto|].
  destruct (digit_value c) as [d|]; [|tauto].
  split; [|discriminate].
  intros Hnone. destruct (parse_digits_Some rest (10 * 0 + d)) as [m Hm].
  cbn in Hm. rewrite Hm in Hnone. discriminate Hnone.
Qed.

Lemma parse_result_NaN (sign : Z) (digits : string) :
  match parse_digits None digits with
  | None => NaN
  | Some m => of_integer (sign * m) (sign <? 0)%Z
  end = NaN <-> leading_digit digits = false.
Proof.
  rewrite <- parse_digits_None.
  destruct (parse_digits None digits); split; intros H;
    first [reflexivity | discriminate H
          | exfalso; exact (of_integer_not_NaN _ _ H)].
Qed.

Lemma parseInt10_NaN (value : string) :
  parseInt10 value = NaN <-> starts_with_integer value = false.
Proof.
  unfold parseInt10, starts_with_integer.
  generalize (trim_start value). intros t.
  destruct t as [|c rest]; [cbn; tauto|].
  ascii_split c; cbv beta match zeta; apply parse_result_NaN.
Qed.

End ParseInt.

(** X5.  A [RateLimitError] has a [retryAfter] exactly when the
    [retry-after] header is present and its value begins, after white
    space, with an optional sign and a decimal digit.  A value in the
    HTTP-date form ([Wed, 21 Oct 2015 07:28:00 GMT]) therefore gives no
    [retryAfter]. *)
Theorem RateLimitError_retryAfter_defined_iff :
  forall (Headers : Type) (Headers_get : Headers -> string -> option string)
         (msg : string) (b : val) (hs : option Headers),
    is_Some (retryAfter (new_RateLimitError Headers Headers_get msg b hs)) <->
    exists value : string,
      hs ≫= (fun h => Headers_get h "retry-after") = Some value /\
      starts_with_integer value = true.
Proof.
  intros Headers Headers_get msg b hs.
  cbn [new_RateLimitError set_retryAfter retryAfter].
  rewrite parseRetryAfter_spec.
  destruct (hs ≫= _) as [value|].
  - pose proof (parseInt10_NaN value) as HNaN.
    rewrite <- isNaN_true in HNaN.
    destruct (isNaN (parseInt10 value)).
    + split.
      * intros [x Hx]. discriminate Hx.
      * intros (v & Hv & Hint). injection Hv as <-.
        rewrite (proj1 HNaN eq_refl) in Hint. discriminate Hint.
    + split; [|intros _; eexists; reflexivity].
      intros _. exists value. split; [reflexivity|].
      destruct (starts_with_integer value); [reflexivity|].
      pose proof (proj2 HNaN eq_refl) as Habs. discriminate Habs.
  - split.
    + intros [x Hx]. discriminate Hx.
    + intros (v & Hv & _). discriminate Hv.
Qed.

Section Numerals.

Lemma parse_digits_stops (acc : option Z) (tail : string) :
  no_leading_digit tail = true -> parse_digits acc tail = acc.
Proof.
  unfold no_leading_digit, leading_digit.
  destruct tail as [|c rest]; cbn; [reflexivity|].
  destruct (digit_value c); [discriminate|reflexivity].
Qed.

Lemma parse_digits_step (c : ascii) (k : Z) (acc : option Z) (rest : string) :
  digit_value c = Some k ->
  parse_digits acc (String c rest)
    = parse_digits (Some (10 * default 0%Z acc + k)%Z) rest.
Proof. intros Hc. cbn [parse_digits]. rewrite Hc. reflexivity. Qed.

Lemma append_String (c : ascii) (s t : string) :
  String c s ++ t = String c (s ++ t).
Proof. reflexivity. Qed.

Local Ltac read_first_digit :=
  cbn [DecimalString.NilEmpty.string_of_uint]; rewrite append_String;
  lazymatch goal with
  | |- parse_digits _ (String ?c _) = _ =>
      let k := eval vm_compute in (default 0%Z (digit_value c)) in
      rewrite (parse_digits_step c k) by reflexivity
  end.

Local Ltac read_digit IH :=
  read_first_digit;
  cbn [Pos.of_uint_acc Pos.of_uint default];
  rewrite <- IH; do 2 f_equal; unfold id; lia.

(** Reading the digits of [d] after an accumulator [acc] is the
    accumulation that [Pos.of_uint_acc] performs. *)
Lemma parse_digits_of_uint_acc (d : Decimal.uint) (acc : positive)
    (tail : string) :
  no_leading_digit tail = true ->
  parse_digits (Some (Z.pos acc))
               (DecimalString.NilEmpty.string_of_uint d ++ tail)
    = Some (Z.pos (Pos.of_uint_acc d acc)).
Proof.
  intros Htail. revert acc.
  induction d as [|d IH|d IH|d IH|d IH|d IH|d IH|d IH|d IH|d IH|d IH];
    intros acc;
    [ cbn; apply parse_digits_stops; exact Htail | read_digit IH .. ].
Qed.

Lemma parse_digits_of_uint (d : Decimal.uint) (tail : string) :
  no_leading_digit tail = true ->
  parse_digits (Some 0%Z) (DecimalString.NilEmpty.string_of_uint d ++ tail)
    = Some (Z.of_N (Pos.of_uint d)).
Proof.
  intros Htail.
  pose proof (fun d' acc => parse_digits_of_uint_acc d' acc tail Htail) as Hacc.
  induction d as [|d IH|d IH|d IH|d IH|d IH|d IH|d IH|d IH|d IH|d IH];
    [ cbn; apply parse_digits_stops; exact Htail
    | exact IH
    | read_first_digit;
      cbn [Pos.of_uint default Z.of_N];
      rewrite <- Hacc; reflexivity .. ].
Qed.

Lemma parse_digits_fresh (d : Decimal.uint) (tail : string) :
  d <> Decimal.Nil ->
  parse_digits None (DecimalString.NilEmpty.string_of_uint d ++ tail)
    = parse_digits (Some 0%Z) (DecimalString.NilEmpty.string_of_uint d ++ tail).
Proof.
  intros Hd. destruct d; [contradiction Hd; reflexivity|reflexivity ..].
Qed.

Lemma parse_digits_positive (p : positive) (tail : string) :
  no_leading_digit tail = true ->
  parse_digits None
    (DecimalString.NilEmpty.string_of_uint (Pos.to_uint p) ++ tail)
    = Some (Z.pos p).
Proof.
  intros Htail.
  rewrite parse_digits_fresh by apply DecimalPos.Unsigned.to_uint_nonnil.
  rewrite parse_digits_of_uint by exact Htail.
  rewrite DecimalPos.Unsigned.of_to. reflexivity.
Qed.

Lemma trim_start_white_space (ws s : string) :
  all_white_space ws = true -> trim_start (ws ++ s) = trim_start s.
Proof.
  induction ws as [|c ws IH]; cbn [all_white_space]; [reflexivity|].
  intros Hws. apply andb_prop in Hws as [Hc Hws].
  rewrite append_String. cbn [trim_start]. rewrite Hc. apply IH. exact Hws.
Qed.

Lemma string_of_uint_nonnil (d : Decimal.uint) :
  d <> Decimal.Nil ->
  DecimalString.NilZero.string_of_uint d
    = DecimalString.NilEmpty.string_of_uint d.
Proof. intros Hd. destruct d; [contradiction Hd|..]; reflexivity. Qed.

Lemma leading_digit_uint (d : Decimal.uint) (tail : string) :
  d <> Decimal.Nil ->
  leading_digit (DecimalString.NilEmpty.string_of_uint d ++ tail) = true.
Proof. intros Hd. destruct d; [contradiction Hd|..]; reflexivity. Qed.

Local Ltac ascii_all c := destruct c as [[] [] [] [] [] [] [] []].

(** [parseInt] on a text that begins with a digit, and on [-] followed
    by any text. *)
Lemma parseInt10_unsigned (s : string) :
  leading_digit s = true ->
  parseInt10 s = match parse_digits None s with
                 | Some m => Int m
                 | None => NaN
                 end.
Proof.
  destruct s as [|c rest]; [discriminate|].
  ascii_all c; try discriminate; intros _;
    lazymatch goal with
    | |- parseInt10 ?s = _ =>
        change (parseInt10 s)
          with (match parse_digits None s with
                | None => NaN
                | Some m => of_integer (1 * m) false
                end)
    end;
    (destruct (parse_digits None _) as [m|];
     [rewrite Z.mul_1_l; reflexivity|reflexivity]).
Qed.

Lemma parseInt10_minus (s : string) :
  parseInt10 (String "-" s) = match parse_digits None s with
                              | Some m => of_integer (- m) true
                              | None => NaN
                              end.
Proof.
  change (parseInt10 (String "-" s))
    with (match parse_digits None s with
          | None => NaN
          | Some m => of_integer (-1 * m) true
          end).
  destruct (parse_digits None s) as [m|]; [|reflexivity].
  replace (-1 * m)%Z with (- m)%Z by lia. reflexivity.
Qed.

(** [parseInt] reads a decimal numeral back, whatever white space
    precedes it and whatever non-digit text follows it. *)
Lemma parseInt10_decimal (ws : string) (n : Z) (tail : string) :
  all_white_space ws = true ->
  no_leading_digit tail = true ->
  parseInt10 (ws ++ decimal n ++ tail) = Int n.
Proof.
  intros Hws Htail.
  assert (Htrim : forall s, parseInt10 (ws ++ s) = parseInt10 s).
  { intros s. unfold parseInt10. rewrite trim_start_white_space by exact Hws.
    reflexivity. }
  rewrite Htrim. unfold decimal. destruct n as [|p|p].
  - change (DecimalString.NilZero.string_of_int (Z.to_int 0))
      with (DecimalString.NilEmpty.string_of_uint (Decimal.D0 Decimal.Nil)).
    rewrite parseInt10_unsigned by (apply leading_digit_uint; discriminate).
    rewrite parse_digits_fresh by discriminate.
    rewrite parse_digits_of_uint by exact Htail. reflexivity.
  - change (DecimalString.NilZero.string_of_int (Z.to_int (Z.pos p)))
      with (DecimalString.NilZero.string_of_uint (Pos.to_uint p)).
    rewrite string_of_uint_nonnil by apply DecimalPos.Unsigned.to_uint_nonnil.
    rewrite parseInt10_unsigned
      by (apply leading_digit_uint, DecimalPos.Unsigned.to_uint_nonnil).
    rewrite parse_digits_positive by exact Htail. reflexivity.
  - change (DecimalString.NilZero.string_of_int (Z.to_int (Z.neg p)))
      with (String "-" (DecimalString.NilZero.string_of_uint (Pos.to_uint p))).
    rewrite string_of_uint_nonnil by apply DecimalPos.Unsigned.to_uint_nonnil.
    rewrite append_String, parseInt10_minus.
    rewrite parse_digits_positive by exact Htail. reflexivity.
Qed.

End Numerals.

Section Binary64Exact.

Local Open Scope Z_scope.

(** The number of binary digits of a positive integer, which the
    rounding functions consult. *)
Local Ltac hide_pows :=
  repeat match goal with
         | |- context [2 ^ ?e] =>
             let x := fresh "pw" in set (x := 2 ^ e) in *; clearbody x
         | H : context [2 ^ ?e] |- _ =>
             let x := fresh "pw" in set (x := 2 ^ e) in *; clearbody x
         end.

Lemma digits2_pos_bounds (p : positive) :
  2 ^ (Z.pos (digits2_pos p) - 1) <= Z.pos p < 2 ^ Z.pos (digits2_pos p).
Proof.
  induction p as [p IH|p IH|]; cbn [digits2_pos].
  - rewrite Pos2Z.inj_succ. change (Z.pos p~1) with (2 * Z.pos p + 1).
    replace (Z.succ (Z.pos (digits2_pos p)) - 1)
      with (Z.succ (Z.pos (digits2_pos p) - 1)) by lia.
    rewrite !Z.pow_succ_r by lia. hide_pows. lia.
  - rewrite Pos2Z.inj_succ. change (Z.pos p~0) with (2 * Z.pos p).
    replace (Z.succ (Z.pos (digits2_pos p)) - 1)
      with (Z.succ (Z.pos (digits2_pos p) - 1)) by lia.
    rewrite !Z.pow_succ_r by lia. hide_pows. lia.
  - cbn. lia.
Qed.

Lemma Zdigits2_bounds (c : Z) :
  0 < c -> 2 ^ (Zdigits2 c - 1) <= c < 2 ^ Zdigits2 c /\ 1 <= Zdigits2 c.
Proof.
  destruct c as [|p|p]; try lia. intros _. cbn [Zdigits2].
  split; [apply digits2_pos_bounds|lia].
Qed.

Lemma Zdigits2_unique (c d : Z) :
  0 < c -> 2 ^ (d - 1) <= c < 2 ^ d -> Zdigits2 c = d.
Proof.
  intros Hc [Hlo Hhi].
  destruct (Zdigits2_bounds c Hc) as [[Hlo' Hhi'] Hd].
  assert (Hd1 : 1 <= d).
  { destruct (Z.le_gt_cases 1 d) as [|Hlt]; [assumption|].
    assert (2 ^ d <= 1).
    { destruct (Z.eq_dec d 0) as [->|]; [cbn; lia|].
      rewrite Z.pow_neg_r by lia. lia. }
    lia. }
  destruct (Z.lt_trichotomy (Zdigits2 c) d) as [Hlt|[Heq|Hgt]]; [|exact Heq|].
  - assert (2 ^ Zdigits2 c <= 2 ^ (d - 1)) by (apply Z.pow_le_mono_r; lia). lia.
  - assert (2 ^ d <= 2 ^ (Zdigits2 c - 1)) by (apply Z.pow_le_mono_r; lia). lia.
Qed.

Lemma Zdigits2_shift (c k : Z) :
  0 < c -> 0 <= k -> Zdigits2 (c * 2 ^ k) = Zdigits2 c + k.
Proof.
  intros Hc Hk.
  destruct (Zdigits2_bounds c Hc) as [[Hlo Hhi] Hd].
  assert (Hpow : 0 < 2 ^ k) by (apply Z.pow_pos_nonneg; lia).
  apply Zdigits2_unique; [nia|].
  replace (Zdigits2 c + k - 1) with ((Zdigits2 c - 1) + k) by lia.
  rewrite !Z.pow_add_r by lia. nia.
Qed.

Lemma Zdigits2_le (c d : Z) :
  0 < c -> c < 2 ^ d -> 0 <= d -> Zdigits2 c <= d.
Proof.
  intros Hc Hlt Hd.
  destruct (Zdigits2_bounds c Hc) as [[Hlo _] _].
  destruct (Z.le_gt_cases (Zdigits2 c) d) as [|Hgt]; [assumption|].
  assert (2 ^ d <= 2 ^ (Zdigits2 c - 1)) by (apply Z.pow_le_mono_r; lia). lia.
Qed.

Lemma Zdigits2_mono (c c' : Z) :
  0 < c -> c <= c' -> Zdigits2 c <= Zdigits2 c'.
Proof.
  intros Hc Hle.
  destruct (Zdigits2_bounds c' ltac:(lia)) as [[_ Hhi] Hd].
  apply Zdigits2_le; lia.
Qed.

Lemma iter_pos_eq {A : Type} (f : A -> A) (n : positive) (x : A) :
  SpecFloat.iter_pos f n x = Pos.iter f x n.
Proof.
  revert x. induction n as [n IH|n IH|]; intros x; cbn.
  - rewrite !IH. rewrite <- !Pos.iter_swap. reflexivity.
  - rewrite !IH. reflexivity.
  - reflexivity.
Qed.

Lemma shr_1_double (c : Z) :
  0 < c ->
  shr_1 {| shr_m := c * 2; shr_r := false; shr_s := false |}
    = {| shr_m := c; shr_r := false; shr_s := false |}.
Proof.
  intros Hc. destruct c as [|p|p]; try lia.
  replace (Z.pos p * 2) with (Z.pos p~0) by lia. reflexivity.
Qed.

Lemma iter_shr_1_exact (n : positive) (c : Z) :
  0 < c ->
  SpecFloat.iter_pos shr_1 n
    {| shr_m := c * 2 ^ Z.pos n; shr_r := false; shr_s := false |}
    = {| shr_m := c; shr_r := false; shr_s := false |}.
Proof.
  rewrite iter_pos_eq. revert c.
  induction n as [|n IH] using Pos.peano_ind; intros c Hc.
  - cbn [Pos.iter]. change (2 ^ 1) with 2. apply shr_1_double, Hc.
  - rewrite Pos.iter_succ, Pos2Z.inj_succ, Z.pow_succ_r by lia.
    replace (c * (2 * 2 ^ Z.pos n)) with ((c * 2) * 2 ^ Z.pos n) by lia.
    rewrite IH by lia. apply shr_1_double, Hc.
Qed.

Lemma shr_fexp_exact (c k : Z) :
  0 < c -> 0 <= k -> Zdigits2 c <= 53 -> 53 - Zdigits2 c <= k ->
  shr_fexp 53 1024 (c * 2 ^ k) (- k) loc_Exact
    = ({| shr_m := c * 2 ^ (53 - Zdigits2 c); shr_r := false; shr_s := false |},
       Zdigits2 c - 53).
Proof.
  intros Hc Hk Hd Hn.
  destruct (Zdigits2_bounds c Hc) as [_ Hd1].
  unfold shr_fexp. rewrite Zdigits2_shift by assumption.
  unfold fexp, emin.
  replace (Z.max (Zdigits2 c + k + - k - 53) (3 - 1024 - 53))
    with (Zdigits2 c - 53) by lia.
  cbn [shr_record_of_loc]. unfold shr.
  destruct (Zdigits2 c - 53 - - k) as [|n|n] eqn:Hshift.
  - replace k with (53 - Zdigits2 c) by lia. f_equal. lia.
  - f_equal; [|lia].
    replace (c * 2 ^ k) with ((c * 2 ^ (53 - Zdigits2 c)) * 2 ^ Z.pos n).
    + apply iter_shr_1_exact.
      assert (0 < 2 ^ (53 - Zdigits2 c)) by (apply Z.pow_pos_nonneg; lia). nia.
    + rewrite <- Z.mul_assoc, <- Z.pow_add_r by lia.
      replace (53 - Zdigits2 c + Z.pos n) with k by lia. reflexivity.
  - lia.
Qed.

Lemma binary_round_aux_exact (s : bool) (c k : Z) :
  0 < c -> 0 <= k -> Zdigits2 c <= 53 -> 53 - Zdigits2 c <= k ->
  binary_round_aux 53 1024 s (c * 2 ^ k) (- k) loc_Exact
    = S754_finite s (Z.to_pos (c * 2 ^ (53 - Zdigits2 c))) (Zdigits2 c - 53).
Proof.
  intros Hc Hk Hd Hn.
  destruct (Zdigits2_bounds c Hc) as [_ Hd1].
  unfold binary_round_aux. rewrite shr_fexp_exact by assumption.
  cbn [shr_m loc_of_shr_record round_nearest_even].
  replace (Zdigits2 c - 53) with (- (53 - Zdigits2 c)) at 1 by lia.
  rewrite shr_fexp_exact by lia.
  cbn [shr_m].
  assert (Hpos : 0 < c * 2 ^ (53 - Zdigits2 c)).
  { assert (0 < 2 ^ (53 - Zdigits2 c)) by (apply Z.pow_pos_nonneg; lia). nia. }
  destruct (c * 2 ^ (53 - Zdigits2 c)) as [|m|m] eqn:Hm; try lia.
  replace (Zdigits2 c - 53 <=? 1024 - 53) with true
    by (symmetry; apply Z.leb_le; lia).
  reflexivity.
Qed.

Lemma pos_iter_xO (p d : positive) :
  Z.pos (Pos.iter xO p d) = Z.pos p * 2 ^ Z.pos d.
Proof.
  induction d as [|d IH] using Pos.peano_ind.
  - cbn [Pos.iter]. change (2 ^ 1) with 2. lia.
  - rewrite Pos.iter_succ, Pos2Z.inj_succ, Z.pow_succ_r by lia.
    change (Z.pos (Pos.iter xO p d)~0) with (2 * Z.pos (Pos.iter xO p d)).
    rewrite IH. lia.
Qed.

(** The number for an integer of at most 53 bits: its mantissa is the
    integer shifted to 53 bits. *)
Lemma binary_round_exact (s : bool) (p : positive) :
  Zdigits2 (Z.pos p) <= 53 ->
  binary_round 53 1024 s p 0
    = S754_finite s (Z.to_pos (Z.pos p * 2 ^ (53 - Zdigits2 (Z.pos p))))
                  (Zdigits2 (Z.pos p) - 53).
Proof.
  intros Hd.
  destruct (Zdigits2_bounds (Z.pos p) ltac:(lia)) as [_ Hd1].
  unfold binary_round, shl_align.
  assert (Hfexp : fexp 53 1024 (Z.pos (digits2_pos p) + 0)
                  = Zdigits2 (Z.pos p) - 53).
  { unfold fexp, emin. cbn [Zdigits2] in *. lia. }
  rewrite Hfexp.
  destruct (Zdigits2 (Z.pos p) - 53 - 0) as [|d|d] eqn:Hshift.
  - replace 0 with (- 0) at 2 by reflexivity.
    replace (Z.pos p) with (Z.pos p * 2 ^ 0) at 1 by (cbn; lia).
    rewrite binary_round_aux_exact by lia. reflexivity.
  - lia.
  - rewrite pos_iter_xO.
    replace (Zdigits2 (Z.pos p) - 53) with (- Z.pos d) at 1 by lia.
    rewrite binary_round_aux_exact by lia. reflexivity.
Qed.

Lemma integer_value_canonical (s : bool) (c : Z) (j : Z) :
  0 < c -> 0 <= j ->
  integer_value (S754_finite s (Z.to_pos (c * 2 ^ j)) (- j))
    = Some (cond_Zopp s c).
Proof.
  intros Hc Hj.
  assert (Hpow : 0 < 2 ^ j) by (apply Z.pow_pos_nonneg; lia).
  unfold integer_value. rewrite Z2Pos.id by nia.
  destruct (Z.ltb_spec (- j) 0) as [Hneg|Hzero].
  - rewrite Z.opp_involutive, Z.mod_mul, Z.div_mul by lia. reflexivity.
  - replace j with 0 by lia. cbn [Z.opp Z.pow]. rewrite !Z.mul_1_r. reflexivity.
Qed.

(** Multiplying the number of an integer by 1000 is exact as long as
    the product stays below [2^53]. *)
Lemma times_1000_exact (n : Z) :
  Z.abs n <= 9007199254740 ->
  integer_value (times (Int n) (Int 1000)) = Some (1000 * n).
Proof.
  intros Hn. rewrite Int_1000. unfold Int, of_integer, binary_normalize.
  assert (Hcase : forall (s : bool) (p : positive),
             Z.pos p <= 9007199254740 ->
             integer_value
               (times (binary_round 53 1024 s p 0)
                      (S754_finite false 8796093022208000 (-43)))
             = Some (cond_Zopp s (1000 * Z.pos p))).
  { intros s p Hp.
    assert (Hd : Zdigits2 (Z.pos p) <= 53) by (apply Zdigits2_le; lia).
    destruct (Zdigits2_bounds (Z.pos p) ltac:(lia)) as [_ Hd1].
    rewrite binary_round_exact by exact Hd.
    unfold times. cbn [SFmul]. rewrite Bool.xorb_false_r.
    set (ka := 53 - Zdigits2 (Z.pos p)).
    assert (Hka : 0 < 2 ^ ka) by (apply Z.pow_pos_nonneg; lia).
    replace (Z.pos (Z.to_pos (Z.pos p * 2 ^ ka) * 8796093022208000))
      with ((1000 * Z.pos p) * 2 ^ (ka + 43)).
    2:{ rewrite Pos2Z.inj_mul, Z2Pos.id by nia.
        rewrite Z.pow_add_r by lia. change (2 ^ 43) with 8796093022208. lia. }
    replace (Zdigits2 (Z.pos p) - 53 + -43) with (- (ka + 43)) by lia.
    assert (Hdc : Zdigits2 (1000 * Z.pos p) <= 53)
      by (apply Zdigits2_le; lia).
    assert (Hmono : Zdigits2 (Z.pos p) <= Zdigits2 (1000 * Z.pos p))
      by (apply Zdigits2_mono; lia).
    rewrite binary_round_aux_exact by lia.
    replace (Zdigits2 (1000 * Z.pos p) - 53)
      with (- (53 - Zdigits2 (1000 * Z.pos p))) by lia.
    apply integer_value_canonical; lia. }
  destruct n as [|p|p].
  - reflexivity.
  - rewrite Hcase by lia. reflexivity.
  - rewrite Hcase by lia. reflexivity.
Qed.

End Binary64Exact.

(** X6.  When the [retry-after] value is the decimal numeral of an integer
    [n] with [|n| <= 9007199254740] (so that [1000 * n] stays below
    [2^53]), possibly after white space and possibly followed by text
    that does not begin with a digit, [retryAfter] is the product of the
    numbers [n] and [1000] and is exactly [1000 * n].  A negative numeral
    gives a negative [retryAfter] (nothing clamps it), and of a header
    sent twice, whose values [Headers.get] joins with a comma, the first
    value counts. *)
Theorem RateLimitError_retryAfter_of_numeral :
  forall (Headers : Type) (Headers_get : Headers -> string -> option string)
         (msg : string) (b : val) (hs : option Headers)
         (ws : string) (n : Z) (tail : string),
    all_white_space ws = true ->
    no_leading_digit tail = true ->
    hs ≫= (fun h => Headers_get h "retry-after") = Some (ws ++ decimal n ++ tail) ->
    (Z.abs n <= 9007199254740)%Z ->
    retryAfter (new_RateLimitError Headers Headers_get msg b hs)
      = Some (times (Int n) (Int 1000)) /\
    integer_value (times (Int n) (Int 1000)) = Some (1000 * n)%Z.
Proof.
  intros Headers Headers_get msg b hs ws n tail Hws Htail Hget Hn.
  split; [|apply times_1000_exact; exact Hn].
  cbn [new_RateLimitError set_retryAfter retryAfter].
  rewrite parseRetryAfter_spec, Hget.
  rewrite parseInt10_decimal by assumption.
  destruct (isNaN (Int n)) eqn:HNaN; [|reflexivity].
  apply isNaN_true in HNaN. destruct (of_integer_not_NaN _ _ HNaN).
Qed.

Lemma RateLimitError_retryAfter_of_numeral_witness :
  retryAfter (new_RateLimitError FetchHeaders FetchHeaders_get "Too many" VUndefined
                (Some [("Retry-After", "120"); ("retry-after", "60")]))
    = Some (times (Int 120) (Int 1000)) /\
  integer_value (times (Int 120) (Int 1000)) = Some (1000 * 120)%Z.
Proof.
  apply (RateLimitError_retryAfter_of_numeral FetchHeaders FetchHeaders_get
           "Too many" VUndefined
           (Some [("Retry-After", "120"); ("retry-after", "60")])
           EmptyString 120%Z ", 60");
    [reflexivity|reflexivity|reflexivity|vm_compute; discriminate].
Defined.

(** Beyond that range the product is the rounded one: these header
    values give 72057594037928992 and 9007199254740992000; a numeral
    of 401 digits gives [Infinity], and [-0] gives [-0]. *)
Example RateLimitError_retry_after_rounded_product :
  retryAfter (new_RateLimitError FetchHeaders FetchHeaders_get "Too many" VUndefined
                (Some [("retry-after", "72057594037929")])) ≫= integer_value
    = Some 72057594037928992%Z.
Proof. vm_compute. reflexivity. Qed.

Example RateLimitError_retry_after_rounded_parse :
  retryAfter (new_RateLimitError FetchHeaders FetchHeaders_get "Too many" VUndefined
                (Some [("retry-after", "9007199254740993")])) ≫= integer_value
    = Some 9007199254740992000%Z.
Proof. vm_compute. reflexivity. Qed.

Example RateLimitError_retry_after_infinite :
  retryAfter (new_RateLimitError FetchHeaders FetchHeaders_get "Too many" VUndefined
                (Some [("retry-after",
                        "10000000000000000000000000000000000000000000000000000000000000000000000000000000000000000000000000000000000000000000000000000000000000000000000000000000000000000000000000000000000000000000000000000000000000000000000000000000000000000000000000000000000000000000000000000000000000000000000000000000000000000000000000000000000000000000000000000000000000000000000000000000000000000000000000000000000000000")]))
    = Some (S754_infinity false).
Proof. vm_compute. reflexivity. Qed.

Example RateLimitError_retry_after_negative_zero :
  retryAfter (new_RateLimitError FetchHeaders FetchHeaders_get "Too many" VUndefined
                (Some [("retry-after", "-0")]))
    = Some (S754_zero true).
Proof. vm_compute. reflexivity. Qed.

(* ===================================================================== *)
(** ** What the error mapping of HINT 5 computes                          *)
(* ===================================================================== *)

(** X7.  The mapping sketched in HINT 5 of exercise 05 keeps the message,
    body and headers, but not always the status: the error it builds
    reports [min(status, 500)], so every status above 500 (502, 503, ...)
    is reported as 500, by an [InternalServerError]; and it parses
    [retry-after] for status 429 only. *)
Theorem hint5_mapStatusToError_status :
  forall (Headers : Type) (Headers_get : Headers -> string -> option string)
         (st : Z) (msg : string) (b : val) (hs : option Headers),
    let e := ClientHint5.mapStatusToError Headers Headers_get st msg b hs in
    status e = Z.min st 500 /\
    (name e = "InternalServerError" <-> (500 <= st)%Z) /\
    retryAfter e = (if (st =? 429)%Z
                    then parseRetryAfter Headers Headers_get hs
                    else None) /\
    message e = msg /\ body e = b /\ headers e = hs.
Proof.
  intros Headers Headers_get st msg b hs e. subst e.
  unfold ClientHint5.mapStatusToError.
  repeat match goal with
         | |- context [(st =? ?k)%Z] => destruct (Z.eqb_spec st k); [subst st|]
         end;
    try (cbn; repeat split; first [reflexivity | discriminate | lia]).
  destruct (Z.geb_spec st 500); cbn;
    repeat split; first [reflexivity | discriminate | lia | idtac].
  all: try lia.
Qed.

(* ===================================================================== *)
(** ** Further properties of the parser of HINT 1 (exercise 04)           *)
(* ===================================================================== *)

Section FormatParse.

Import Hint1.

Lemma unescape_escape (segment : string) :
  unescapePointer (escapePointer segment) = segment.
Proof.
  induction segment as [|c rest IH]; [reflexivity|].
  cbn [escapePointer].
  destruct (Ascii.eqb_spec c "~") as [->|Htilde].
  - rewrite unescapePointer_tilde0, IH. reflexivity.
  - destruct (Ascii.eqb_spec c "/") as [->|Hslash].
    + rewrite unescapePointer_tilde1, IH. reflexivity.
    + rewrite unescapePointer_other by exact Htilde. rewrite IH. reflexivity.
Qed.

Lemma append_EmptyString_r (s : string) : s ++ EmptyString = s.
Proof.
  induction s as [|c s IH]; [reflexivity|].
  rewrite append_String, IH. reflexivity.
Qed.

Lemma split_slash_cons (c : ascii) (s piece : string) (pieces : list string) :
  c <> "/"%char ->
  split_slash s = piece :: pieces ->
  split_slash (String c s) = String c piece :: pieces.
Proof.
  intros Hc Hs.
  destruct (split_slash_other c s Hc) as (piece' & pieces' & Hs' & Hsplit).
  rewrite Hs in Hs'. injection Hs' as <- <-. exact Hsplit.
Qed.

(** An escaped segment holds no [/]: splitting stops at the [/] that
    follows it, or returns it whole. *)
Lemma split_slash_escaped (segment : string) (after : option string) :
  split_slash (escapePointer segment ++
               match after with
               | Some t => String "/" t
               | None => EmptyString
               end)
    = escapePointer segment ::
      match after with
      | Some t => split_slash t
      | None => []
      end.
Proof.
  induction segment as [|c rest IH].
  - destruct after; reflexivity.
  - cbn [escapePointer].
    destruct (Ascii.eqb_spec c "~") as [->|Htilde];
      [|destruct (Ascii.eqb_spec c "/") as [->|Hslash]];
      rewrite ?append_String;
      repeat (apply split_slash_cons; [discriminate || assumption|]);
      exact IH.
Qed.

Lemma split_join_escaped (segments : list string) :
  segments <> [] ->
  split_slash (join_slash (map escapePointer segments))
    = map escapePointer segments.
Proof.
  induction segments as [|segment more IH]; [intros H; contradiction H; reflexivity|].
  intros _. destruct more as [|segment' more'].
  - cbn [map join_slash].
    pose proof (split_slash_escaped segment None) as H.
    cbv beta match in H. rewrite append_EmptyString_r in H. exact H.
  - change (join_slash (map escapePointer (segment :: segment' :: more')))
      with (escapePointer segment ++
            String "/" (join_slash (map escapePointer (segment' :: more')))).
    rewrite (split_slash_escaped segment (Some _)).
    rewrite IH by discriminate. reflexivity.
Qed.

Lemma startsWith_hash_slash_append (s : string) :
  startsWith "#/" ("#/" ++ s) = true.
Proof.
  unfold startsWith. rewrite !append_String. cbn [String.prefix].
  destruct (ascii_dec "#" "#"); [|congruence].
  destruct (ascii_dec "/" "/"); [|congruence].
  destruct s; reflexivity.
Qed.

Lemma slice2_hash_slash_append (s : string) : slice2 ("#/" ++ s) = s.
Proof. reflexivity. Qed.

End FormatParse.

(** X8.  For the parser sketched in HINT 1 of exercise 04: formatting a
    non-empty list of segments (each re-escaped, joined with [/], after
    [#/]) and parsing the result gives the segments back, whatever
    characters they hold.  (The empty list is the exception: it formats
    to [#/], which parses to one empty segment.) *)
Theorem hint1_format_then_parse :
  forall segments : list string,
    segments <> [] ->
    Hint1.parseJsonPointer (Hint1.formatJsonPointer segments) = Return segments.
Proof.
  intros segments Hne.
  unfold Hint1.parseJsonPointer, Hint1.formatJsonPointer.
  rewrite startsWith_hash_slash_append, slice2_hash_slash_append.
  cbn [negb].
  rewrite split_join_escaped by exact Hne.
  f_equal. induction segments as [|segment more IH]; [reflexivity|].
  cbn [map]. rewrite unescape_escape. f_equal.
  destruct more as [|segment' more']; [reflexivity|].
  apply IH. discriminate.
Qed.

Lemma hint1_format_then_parse_witness :
  Hint1.parseJsonPointer (Hint1.formatJsonPointer ["paths"; "/users/{id}"; "a~1b"; ""])
    = Return ["paths"; "/users/{id}"; "a~1b"; ""].
Proof.
  apply (hint1_format_then_parse ["paths"; "/users/{id}"; "a~1b"; ""]).
  discriminate.
Defined.

(** X9.  For the parser sketched in HINT 1: a pointer that begins with
    [#/] and in which every [~] is followed by [0] or [1] parses to a
    non-empty list of segments, and formatting these segments gives the
    pointer back, character for character. *)
Theorem hint1_parse_then_format :
  forall p : string,
    Hint1.valid_pointer p = true ->
    exists segments : list string,
      Hint1.parseJsonPointer p = Return segments /\
      segments <> [] /\
      Hint1.formatJsonPointer segments = p.
Proof.
  intros p Hvalid. unfold Hint1.valid_pointer in Hvalid.
  apply andb_prop in Hvalid as [Hstart Hwe].
  exists (map Hint1.unescapePointer (Hint1.split_slash (Hint1.slice2 p))).
  split; [|split].
  - unfold Hint1.parseJsonPointer. rewrite Hstart. reflexivity.
  - intros Hnil. apply map_eq_nil in Hnil.
    exact (split_slash_nonempty _ Hnil).
  - unfold Hint1.formatJsonPointer.
    rewrite split_unescape_escape_join by exact Hwe.
    symmetry. apply startsWith_hash_slash. exact Hstart.
Qed.

Lemma hint1_parse_then_format_witness :
  exists segments : list string,
    Hint1.parseJsonPointer "#/paths/~1users~1{id}/get~0all" = Return segments /\
    segments <> [] /\
    Hint1.formatJsonPointer segments = "#/paths/~1users~1{id}/get~0all".
Proof.
  apply (hint1_parse_then_format "#/paths/~1users~1{id}/get~0all").
  reflexivity.
Defined.

(** X10.  The parser sketched in HINT 1 throws exactly on the strings that
    do not begin with [#]; and it returns the root (no segment) exactly
    on the strings that begin with [#] but not with [#/]: [#/] itself is
    not the root, and [#components] is. *)
Theorem hint1_parse_throws_iff_no_hash :
  forall p : string,
    returns (Hint1.parseJsonPointer p) = Hint1.startsWith "#" p /\
    (Hint1.parseJsonPointer p = Return [] <->
     Hint1.startsWith "#" p = true /\ Hint1.startsWith "#/" p = false).
Proof.
  intros p. unfold Hint1.parseJsonPointer.
  destruct (Hint1.startsWith "#/" p) eqn:Hslash; cbn [negb].
  - assert (Hhash : Hint1.startsWith "#" p = true).
    { rewrite (startsWith_hash_slash p Hslash).
      unfold Hint1.startsWith. rewrite append_String. cbn [String.prefix].
      destruct (ascii_dec "#" "#"); [|congruence]. reflexivity. }
    rewrite Hhash. split; [reflexivity|]. split.
    + intros Hroot. injection Hroot as Hnil. apply map_eq_nil in Hnil.
      destruct (split_slash_nonempty _ Hnil).
    + intros [_ Hno]. discriminate Hno.
  - destruct (Hint1.startsWith "#" p) eqn:Hhash.
    + split; [reflexivity|]. split; [auto|reflexivity].
    + split; [reflexivity|]. split; [discriminate|].
      intros [Hyes _]. discriminate Hyes.
Qed.
